(** * Persson-Brener effective surface energy: kernel, fixed-point solver, sweep

    A shallow embedding of [src/main.py] and [src/XPB_plot.py].

    Numbers.  The scripts compute with Python floats and with mpmath's
    [mpf] values.  Both are read here as real numbers ([R]): rounding,
    overflow and the working precision are left out, everything else is
    kept.  Division of a float or an [mpf] by zero raises
    [ZeroDivisionError]; a power whose value is not a real number (a
    negative base under a fractional exponent, which Python turns into a
    complex number and numpy into nan) ends the part of the computation
    this development follows, with the outcome [NotReal].  The grid values
    a sweep hands to the solver are numpy scalars; they are positive
    there, and the solver's arguments are read as floats.

    Library.  [mp.hyper] and [mp.gamma] belong to mpmath, not to the
    repository.  The program is written over a record [mpmath] holding the
    two functions, so that what is proved of the program holds whatever
    the library computes; [Mp] at the end of the definitions is the
    mathematical reading of the two functions (the hypergeometric series
    and Euler's gamma function, with the poles where mpmath raises). *)

From Stdlib Require Import Reals Lra Lia List String ZArith ClassicalEpsilon.
From Stdlib Require Import DecimalString Sorted.
Import ListNotations.
Open Scope R_scope.

(** ** Outcomes of a Python computation *)

(** An f-string is a sequence of literal pieces and formatted fields;
    the only format the scripts use is [{x:g}]. *)
Inductive fpart : Type :=
| Lit (s : string)
| Fmt_g (x : R).

Inductive exn : Type :=
| ZeroDivisionError
| ValueError (msg : string)
| RuntimeError (msg : list fpart).

Inductive result (A : Type) : Type :=
| Ok (a : A)
| Raise (e : exn)
| NotReal.

Arguments Ok {A} a.
Arguments Raise {A} e.
Arguments NotReal {A}.

Definition bind {A B : Type} (r : result A) (f : A -> result B) : result B :=
  match r with
  | Ok a => f a
  | Raise e => Raise e
  | NotReal => NotReal
  end.

Notation "x <- r ;; k" := (bind r (fun x => k))
  (at level 61, r at next level, right associativity).

(** The value of a computation that ended normally. *)
Definition defined {A : Type} (r : result A) : option A :=
  match r with
  | Ok a => Some a
  | _ => None
  end.

(** ** Python arithmetic on real values *)

(** [x / y] on floats and on [mpf]. *)
Definition py_div (x y : R) : result R :=
  if Req_dec_T y 0 then Raise ZeroDivisionError else Ok (x / y).

(** The integer a real number is, if it is one. *)
Definition int_of (y : R) : option Z :=
  if Req_dec_T y (IZR (Int_part y)) then Some (Int_part y) else None.

(** [x ** y] on floats and on [mpf]. *)
Definition py_pow (x y : R) : result R :=
  if Rlt_dec 0 x then Ok (Rpower x y)
  else if Req_dec_T x 0 then
    if Rlt_dec 0 y then Ok 0
    else if Req_dec_T y 0 then Ok 1
    else Raise ZeroDivisionError
  else
    match int_of y with
    | Some z => Ok (powerRZ x z)
    | None => NotReal
    end.

(** [x / y] and [x ** y] on numpy values: no exception, the result is inf
    or nan where there is no real value. *)
Definition np_div (x y : R) : result R :=
  if Req_dec_T y 0 then NotReal else Ok (x / y).

Definition np_power (x y : R) : result R :=
  if Rlt_dec 0 x then Ok (Rpower x y)
  else if Req_dec_T x 0 then
    if Rlt_dec 0 y then Ok 0
    else if Req_dec_T y 0 then Ok 1
    else NotReal
  else
    match int_of y with
    | Some z => Ok (powerRZ x z)
    | None => NotReal
    end.

(** [float(x)] of a real [mpf] value. *)
Definition float (x : R) : R := x.

(** [math.log10(x)]: raises outside the positive numbers. *)
Definition math_log10 (x : R) : result R :=
  if Rlt_dec 0 x then Ok (ln x / ln 10)
  else Raise (ValueError "math domain error").

(** [np.log10(x)]: -inf at zero and nan below it, without an exception. *)
Definition np_log10 (x : R) : result R :=
  if Rlt_dec 0 x then Ok (ln x / ln 10) else NotReal.

Definition string_of_Z (z : Z) : string :=
  NilZero.string_of_int (Z.to_int z).

(** [np.linspace(start, stop, num)] with the endpoint included: the
    samples [i * step + start], the last one overwritten with [stop]. *)
Definition np_linspace (start stop : R) (num : Z) : result (list R) :=
  if (num <? 0)%Z then
    Raise (ValueError
             ("Number of samples, " ++ string_of_Z num
              ++ ", must be non-negative."))
  else
    let count := Z.to_nat num in
    let div := (count - 1)%nat in
    let delta := stop - start in
    let step := delta / INR div in
    Ok (map
          (fun i =>
             if andb (1 <? count)%nat (i =? div)%nat then stop
             else if (0 <? div)%nat then INR i * step + start
             else INR i * delta + start)
          (seq 0 count)).

(** [np.logspace(start, stop, num)]: the powers of the base 10.0, which
    is positive, at the samples of [np.linspace]. *)
Definition np_logspace (start stop : R) (num : Z) : result (list R) :=
  ys <- np_linspace start stop num ;;
  Ok (map (Rpower 10) ys).

(** ** The mpmath functions the scripts call *)

Record mpmath : Type := {
  hyper : list R -> list R -> R -> result R;
  gamma : R -> result R
}.

(** The default arguments [tol=1e-10, max_iter=200] of both solvers. *)
Definition default_tol : R := 1e-10.
Definition default_max_iter : Z := 200.

(** A curve handed to [plt.loglog]: the label's [n], abscissae, ordinates. *)
Record curve : Type := {
  curve_n : R;
  curve_x : list R;
  curve_y : list R
}.

(** ** src/main.py *)

Module Main.

Definition k : R := 0.10.
Definition n_list : list R := [0.2; 0.4; 0.6; 0.8; 1.6].
Definition nu_min : R := 1e-2.
Definition nu_max : R := 1e8.
Definition num_points : Z := 200.

Section WithMpmath.

Variable mp : mpmath.

(** [prod = 1; for b in b_list: prod *= mp.gamma(b)] *)
Fixpoint gamma_product_loop (prod : R) (b_list : list R) : result R :=
  match b_list with
  | [] => Ok prod
  | b :: rest =>
      g <- mp.(gamma) b ;;
      gamma_product_loop (prod * g) rest
  end.

Definition _gamma_product (b_list : list R) : result R :=
  gamma_product_loop 1 b_list.

Definition hyper_reg (a_list b_list : list R) (z : R) : result R :=
  h <- mp.(hyper) a_list b_list z ;;
  p <- _gamma_product b_list ;;
  py_div h p.

Definition I_value (n nu Gamma : R) : result R :=
  p2 <- py_pow 2 (-3 - 2 * n) ;;
  ppi <- py_pow PI (-1.5 - n) ;;
  pre <- py_div (p2 * ppi) ((n - 1) * nu) ;;
  q <- py_div Gamma (4 * PI * nu) ;;
  let x_sq := q ^ 2 in
  let z := - x_sq in
  hyper1 <- mp.(hyper) [-0.5] [0.5 - n / 2; 1 - n / 2] z ;;
  p4 <- py_pow 4 (1 + n) ;;
  ppi' <- py_pow PI (0.5 + n) ;;
  let term1 := - p4 * ppi' * (Gamma - 2 * (n - 1) * PI * nu * hyper1) in
  hyper2 <- hyper_reg [(n - 1) / 2] [0.5; (2 + n) / 2] z ;;
  hyper3 <- hyper_reg [n / 2] [1.5; (3 + n) / 2] z ;;
  r <- py_div Gamma nu ;;
  pw <- py_pow r n ;;
  g1 <- mp.(gamma) (1 - n / 2) ;;
  g2 <- mp.(gamma) (1.5 - n / 2) ;;
  let term2 :=
    2 * PI * pw * (4 * PI * nu * g1 * hyper2 + Gamma * g2 * hyper3) in
  Ok (pre * (term1 + term2)).

(** The message of the [RuntimeError] raised after the loop:
    [f"Convergence failed at ν̂ = {nu:g}"]. *)
Definition convergence_failed (nu : R) : list fpart :=
  [Lit "Convergence failed at ν̂ = "; Fmt_g nu].

(** [1.0 / (1.0 - (1.0 - k) * I)] *)
Definition Gamma_next (k I : R) : result R :=
  py_div 1 (1 - (1 - k) * I).

(** The [for _ in range(max_iter)] loop with [Gamma] as its state; the
    [raise] after the loop is reached when the range is exhausted. *)
Fixpoint gamma_eff_loop (n k nu tol : R) (remaining : nat) (Gamma : R)
  : result R :=
  match remaining with
  | O => Raise (RuntimeError (convergence_failed nu))
  | S remaining' =>
      I <- I_value n nu Gamma ;;
      Gn <- Gamma_next k I ;;
      if Rlt_dec (Rabs (Gn - Gamma)) tol then Ok (float Gn)
      else gamma_eff_loop n k nu tol remaining' Gn
  end.

Definition gamma_eff (n k nu tol : R) (max_iter : Z) : result R :=
  gamma_eff_loop n k nu tol (Z.to_nat max_iter) 1.

(** [[gamma_eff(n, k, nu) for nu in nu_vals]] *)
Fixpoint gamma_vals (n k : R) (nu_vals : list R) : result (list R) :=
  match nu_vals with
  | [] => Ok []
  | nu :: rest =>
      g <- gamma_eff n k nu default_tol default_max_iter ;;
      gs <- gamma_vals n k rest ;;
      Ok (g :: gs)
  end.

(** The module-level [for n in n_list] loop.  The figure is the list of
    curves plotted so far; an exception leaves the loop with the figure
    as it then is. *)
Fixpoint sweep (n_list : list R) (k : R) (nu_vals : list R)
  (fig : list curve) : list curve * result unit :=
  match n_list with
  | [] => (fig, Ok tt)
  | n :: rest =>
      match gamma_vals n k nu_vals with
      | Ok gs => sweep rest k nu_vals (fig ++ [Build_curve n nu_vals gs])
      | Raise e => (fig, Raise e)
      | NotReal => (fig, NotReal)
      end
  end.

End WithMpmath.

(** [np.logspace(math.log10(nu_min), math.log10(nu_max), num=num_points)],
    with the three module constants as arguments. *)
Definition nu_vals_of (nu_min nu_max : R) (num_points : Z)
  : result (list R) :=
  lo <- math_log10 nu_min ;;
  hi <- math_log10 nu_max ;;
  np_logspace lo hi num_points.

Definition nu_vals : result (list R) := nu_vals_of nu_min nu_max num_points.

End Main.

(** ** src/XPB_plot.py *)

Module XPB_plot.

Definition k : R := 0.10.
Definition n_list : list R := [0.2; 0.4; 0.6; 0.8; 1.6].
Definition ru_min : R := 1e-2.
Definition ru_max : R := 1e10.
Definition num_points : Z := 200.

(** The conversion constants set in the loop body. *)
Definition C1 : R := 2.887.

Definition C2 : result R :=
  ppi <- py_pow PI (2 / 3) ;;
  Ok (3.24 * ppi).

(** One element of [C1 * ((ru_vals / C2) ** 1.171)]. *)
Definition nu_of_ru (ru : R) : result R :=
  c2 <- C2 ;;
  q <- np_div ru c2 ;;
  p <- np_power q 1.171 ;;
  Ok (C1 * p).

(** The array [nu_vals], element by element. *)
Fixpoint nu_vals (ru_vals : list R) : result (list R) :=
  match ru_vals with
  | [] => Ok []
  | ru :: rest =>
      nu <- nu_of_ru ru ;;
      nus <- nu_vals rest ;;
      Ok (nu :: nus)
  end.

Section WithMpmath.

Variable mp : mpmath.

Fixpoint gamma_product_loop (prod : R) (b_list : list R) : result R :=
  match b_list with
  | [] => Ok prod
  | b :: rest =>
      g <- mp.(gamma) b ;;
      gamma_product_loop (prod * g) rest
  end.

Definition _gamma_product (b_list : list R) : result R :=
  gamma_product_loop 1 b_list.

Definition hyper_reg (a_list b_list : list R) (z : R) : result R :=
  h <- mp.(hyper) a_list b_list z ;;
  p <- _gamma_product b_list ;;
  py_div h p.

Definition I_value (n nu Gamma : R) : result R :=
  p2 <- py_pow 2 (-3 - 2 * n) ;;
  ppi <- py_pow PI (-1.5 - n) ;;
  pre <- py_div (p2 * ppi) ((n - 1) * nu) ;;
  q <- py_div Gamma (4 * PI * nu) ;;
  let x_sq := q ^ 2 in
  let z := - x_sq in
  hyper1 <- mp.(hyper) [-0.5] [0.5 - n / 2; 1 - n / 2] z ;;
  p4 <- py_pow 4 (1 + n) ;;
  ppi' <- py_pow PI (0.5 + n) ;;
  let term1 := - p4 * ppi' * (Gamma - 2 * (n - 1) * PI * nu * hyper1) in
  hyper2 <- hyper_reg [(n - 1) / 2] [0.5; (2 + n) / 2] z ;;
  hyper3 <- hyper_reg [n / 2] [1.5; (3 + n) / 2] z ;;
  r <- py_div Gamma nu ;;
  pw <- py_pow r n ;;
  g1 <- mp.(gamma) (1 - n / 2) ;;
  g2 <- mp.(gamma) (1.5 - n / 2) ;;
  let term2 :=
    2 * PI * pw * (4 * PI * nu * g1 * hyper2 + Gamma * g2 * hyper3) in
  Ok (pre * (term1 + term2)).

Definition convergence_failed (nu : R) : list fpart :=
  [Lit "Convergence failed at ν̂ = "; Fmt_g nu].

Definition Gamma_next (k I : R) : result R :=
  py_div 1 (1 - (1 - k) * I).

Fixpoint gamma_eff_PB_loop (n k nu tol : R) (remaining : nat) (Gamma : R)
  : result R :=
  match remaining with
  | O => Raise (RuntimeError (convergence_failed nu))
  | S remaining' =>
      I <- I_value n nu Gamma ;;
      Gn <- Gamma_next k I ;;
      if Rlt_dec (Rabs (Gn - Gamma)) tol then Ok (float Gn)
      else gamma_eff_PB_loop n k nu tol remaining' Gn
  end.

Definition gamma_eff_PB (n k nu tol : R) (max_iter : Z) : result R :=
  gamma_eff_PB_loop n k nu tol (Z.to_nat max_iter) 1.

(** [[gamma_eff_PB(n, k, nu) for nu in nu_vals]] *)
Fixpoint gamma_vals (n k : R) (nus : list R) : result (list R) :=
  match nus with
  | [] => Ok []
  | nu :: rest =>
      g <- gamma_eff_PB n k nu default_tol default_max_iter ;;
      gs <- gamma_vals n k rest ;;
      Ok (g :: gs)
  end.

(** The module-level loop: [nu_vals] is recomputed from [ru_vals] for
    every [n], and the curve is plotted against [ru_vals]. *)
Fixpoint sweep (n_list : list R) (k : R) (ru_vals : list R)
  (fig : list curve) : list curve * result unit :=
  match n_list with
  | [] => (fig, Ok tt)
  | n :: rest =>
      match (nus <- nu_vals ru_vals ;; gamma_vals n k nus) with
      | Ok gs => sweep rest k ru_vals (fig ++ [Build_curve n ru_vals gs])
      | Raise e => (fig, Raise e)
      | NotReal => (fig, NotReal)
      end
  end.

End WithMpmath.

(** [np.logspace(np.log10(ru_min), np.log10(ru_max), num_points)], with
    the three module constants as arguments. *)
Definition ru_vals_of (ru_min ru_max : R) (num_points : Z)
  : result (list R) :=
  lo <- np_log10 ru_min ;;
  hi <- np_log10 ru_max ;;
  np_logspace lo hi num_points.

Definition ru_vals : result (list R) := ru_vals_of ru_min ru_max num_points.

End XPB_plot.

(** ** The mathematical reading of the two mpmath functions *)

Module Mp.

(** [mp.isnpint]: a non-positive integer. *)
Definition isnpint (x : R) : bool :=
  if Rle_dec x 0 then
    if Req_dec_T x (IZR (Int_part x)) then true else false
  else false.

(** The rising factorial [x (x+1) ... (x+m-1)]. *)
Fixpoint rf (x : R) (m : nat) : R :=
  match m with
  | O => 1
  | S m' => rf x m' * (x + INR m')
  end.

(** Euler's limit for the gamma function, in logarithmic form, for a
    positive argument:
    [ln Gamma(x) = lim (ln m! + x ln m - sum_(i<=m) ln (x+i))]. *)
Definition loggamma_seq (x : R) (m : nat) : R :=
  ln (INR (fact m)) + x * ln (INR m)
  - sum_f_R0 (fun i => ln (x + INR i)) m.

Definition loggamma (x : R) : R :=
  epsilon (inhabits 0) (Un_cv (loggamma_seq x)).

(** The number of unit steps that take [x] to a positive argument. *)
Definition shift (x : R) : nat := Z.to_nat (up (- x)).

(** [Gamma(x) = Gamma(x+m) / (x (x+1) ... (x+m-1))]. *)
Definition gamma_fn (x : R) : R :=
  exp (loggamma (x + INR (shift x))) / rf x (shift x).

(** [mp.gamma]: raises at the poles. *)
Definition gamma (x : R) : result R :=
  if isnpint x then Raise (ValueError "gamma function pole")
  else Ok (gamma_fn x).

Definition rf_prod (l : list R) (j : nat) : R :=
  fold_right (fun x acc => rf x j * acc) 1 l.

(** The term of index [j] of the generalized hypergeometric series. *)
Definition hyp_term (a b : list R) (z : R) (j : nat) : R :=
  rf_prod a j / rf_prod b j * z ^ j / INR (fact j).

Definition hyp_sum (a b : list R) (z : R) : R :=
  epsilon (inhabits 0) (infinite_sum (hyp_term a b z)).

Definition Rle_bool (x y : R) : bool := if Rle_dec x y then true else false.

(** The series has a pole when a denominator parameter is a non-positive
    integer that no numerator parameter, itself a non-positive integer at
    least as large, cuts off first. *)
Definition pole (a b : list R) : bool :=
  existsb
    (fun c =>
       andb (isnpint c)
         (negb (existsb (fun cc => andb (isnpint cc) (Rle_bool c cc)) a)))
    b.

(** [mp.hyper]: raises at a pole of the series. *)
Definition hyper (a b : list R) (z : R) : result R :=
  if pole a b then Raise ZeroDivisionError else Ok (hyp_sum a b z).

Definition lib : mpmath := Build_mpmath hyper gamma.

End Mp.

(** ** The kernel as the closed form states it *)

Module Spec.

Definition obind {A B : Type} (o : option A) (f : A -> option B) : option B :=
  match o with
  | Some a => f a
  | None => None
  end.

(** The hypergeometric sum and the gamma function, where they have a value. *)
Definition pFq (mp : mpmath) (a b : list R) (z : R) : option R :=
  defined (mp.(hyper) a b z).

Definition Gammafunc (mp : mpmath) (x : R) : option R :=
  defined (mp.(gamma) x).

(** The product of the gamma functions of the denominator parameters. *)
Fixpoint gamma_prod (mp : mpmath) (b : list R) : option R :=
  match b with
  | [] => Some 1
  | x :: rest =>
      obind (Gammafunc mp x) (fun g =>
      obind (gamma_prod mp rest) (fun p => Some (g * p)))
  end.

Definition quotient (x y : R) : option R :=
  if Req_dec_T y 0 then None else Some (x / y).

(** The regularized sum: the sum divided by that product. *)
Definition regPFq (mp : mpmath) (a b : list R) (z : R) : option R :=
  obind (pFq mp a b z) (fun h =>
  obind (gamma_prod mp b) (fun p => quotient h p)).

(** A real power, where it has a real value. *)
Definition real_pow (x y : R) : option R := defined (py_pow x y).


Definition term1 (mp : mpmath) (n nu Gamma z : R) : option R :=
  obind (pFq mp [-0.5] [0.5 - n / 2; 1 - n / 2] z) (fun h =>
  Some (- Rpower 4 (1 + n) * Rpower PI (0.5 + n)
        * (Gamma - 2 * (n - 1) * PI * nu * h))).

Definition term2 (mp : mpmath) (n nu Gamma z : R) : option R :=
  obind (real_pow (Gamma / nu) n) (fun pw =>
  obind (Gammafunc mp (1 - n / 2)) (fun g1 =>
  obind (regPFq mp [(n - 1) / 2] [0.5; (2 + n) / 2] z) (fun r2 =>
  obind (Gammafunc mp (1.5 - n / 2)) (fun g2 =>
  obind (regPFq mp [n / 2] [1.5; (3 + n) / 2] z) (fun r3 =>
  Some (2 * PI * pw * (4 * PI * nu * g1 * r2 + Gamma * g2 * r3))))))).


(** One update of the estimate: [Gamma_next = 1/(1-(1-k) I(n,nu,Gamma))]. *)
Definition update (mp : mpmath) (n k nu Gamma : R) : result R :=
  I <- Main.I_value mp n nu Gamma ;;
  Main.Gamma_next k I.

(** [reaches mp n k nu tol j G]: starting from 1.0, [j] updates were made,
    none of them met the tolerance, and the estimate is now [G]. *)
Inductive reaches (mp : mpmath) (n k nu tol : R) : nat -> R -> Prop :=
| reaches_start : reaches mp n k nu tol 0 1
| reaches_step (j : nat) (G G' : R) :
    reaches mp n k nu tol j G ->
    update mp n k nu G = Ok G' ->
    ~ Rabs (G' - G) < tol ->
    reaches mp n k nu tol (S j) G'.


(** The rate mapping as a formula, and the formula that undoes it. *)
Definition nu_formula (ru : R) : R :=
  2.887 * Rpower (ru / (3.24 * Rpower PI (2 / 3))) 1.171.


End Spec.

(** ** Arithmetic lemmas *)

Lemma py_div_nonzero (x y : R) : y <> 0 -> py_div x y = Ok (x / y).
Proof.
  intros Hy. unfold py_div. destruct (Req_dec_T y 0) as [E | _]; [contradiction | reflexivity].
Qed.


Lemma py_pow_pos (x y : R) : 0 < x -> py_pow x y = Ok (Rpower x y).
Proof.
  intros Hx. unfold py_pow. destruct (Rlt_dec 0 x) as [_ | N]; [reflexivity | contradiction].
Qed.

Lemma np_power_pos (x y : R) : 0 < x -> np_power x y = Ok (Rpower x y).
Proof.
  intros Hx. unfold np_power. destruct (Rlt_dec 0 x) as [_ | N]; [reflexivity | contradiction].
Qed.

Lemma np_div_nonzero (x y : R) : y <> 0 -> np_div x y = Ok (x / y).
Proof.
  intros Hy. unfold np_div. destruct (Req_dec_T y 0) as [E | _]; [contradiction | reflexivity].
Qed.

Lemma Int_part_IZR (z : Z) : Int_part (IZR z) = z.
Proof.
  unfold Int_part.
  rewrite <- (up_tech (IZR z) z).
  - lia.
  - apply Rle_refl.
  - apply IZR_lt. lia.
Qed.

(** ** The library model *)

Lemma isnpint_pos (x : R) : 0 < x -> Mp.isnpint x = false.
Proof.
  intros Hx. unfold Mp.isnpint. destruct (Rle_dec x 0) as [L | _]; [lra | reflexivity].
Qed.

Lemma isnpint_IZR (z : Z) : (z <= 0)%Z -> Mp.isnpint (IZR z) = true.
Proof.
  intros Hz. unfold Mp.isnpint.
  destruct (Rle_dec (IZR z) 0) as [_ | N].
  - rewrite Int_part_IZR. destruct (Req_dec_T (IZR z) (IZR z)) as [_ | N]; [reflexivity | contradiction].
  - exfalso. apply N. apply (IZR_le z 0). exact Hz.
Qed.

Lemma isnpint_false_shift (x : R) (i : nat) :
  Mp.isnpint x = false -> x + INR i <> 0.
Proof.
  intros Hx E.
  assert (Hx' : x = IZR (- Z.of_nat i)).
  { rewrite opp_IZR, <- INR_IZR_INZ. lra. }
  rewrite Hx', isnpint_IZR in Hx; [discriminate | lia].
Qed.

Lemma rf_nonzero (x : R) (m : nat) : Mp.isnpint x = false -> Mp.rf x m <> 0.
Proof.
  intros Hx. induction m as [| m IH]; simpl.
  - lra.
  - apply Rmult_integral_contrapositive_currified.
    + exact IH.
    + apply isnpint_false_shift. exact Hx.
Qed.

Lemma gamma_fn_nonzero (x : R) : Mp.isnpint x = false -> Mp.gamma_fn x <> 0.
Proof.
  intros Hx. unfold Mp.gamma_fn.
  apply Rmult_integral_contrapositive_currified.
  - apply Rgt_not_eq, exp_pos.
  - apply Rinv_neq_0_compat, rf_nonzero, Hx.
Qed.

Lemma Mp_gamma_regular (x : R) :
  Mp.isnpint x = false -> exists g, Mp.gamma x = Ok g /\ g <> 0.
Proof.
  intros Hx. exists (Mp.gamma_fn x). unfold Mp.gamma. rewrite Hx.
  split; [reflexivity | apply gamma_fn_nonzero, Hx].
Qed.

Lemma Mp_gamma_pole (x : R) :
  Mp.isnpint x = true -> Mp.gamma x = Raise (ValueError "gamma function pole").
Proof.
  intros Hx. unfold Mp.gamma. rewrite Hx. reflexivity.
Qed.

Lemma Mp_pole_positive (a b : list R) :
  Forall (fun c => 0 < c) b -> Mp.pole a b = false.
Proof.
  intros Hb. unfold Mp.pole. induction Hb as [| c b Hc _ IH]; simpl.
  - reflexivity.
  - rewrite (isnpint_pos c Hc). simpl. exact IH.
Qed.

Lemma Mp_hyper_positive (a b : list R) (z : R) :
  Forall (fun c => 0 < c) b -> Mp.hyper a b z = Ok (Mp.hyp_sum a b z).
Proof.
  intros Hb. unfold Mp.hyper. rewrite (Mp_pole_positive a b Hb). reflexivity.
Qed.

(** ** The regularized sum *)

Lemma gamma_product_loop_prod (mp : mpmath) (b : list R) (p : R) :
  defined (Main.gamma_product_loop mp p b)
  = option_map (Rmult p) (Spec.gamma_prod mp b).
Proof.
  revert p. induction b as [| x rest IH]; intros p; simpl.
  - f_equal. ring.
  - unfold Spec.Gammafunc. destruct (gamma mp x) as [g | e |]; simpl; try reflexivity.
    rewrite IH. destruct (Spec.gamma_prod mp rest) as [q |]; simpl; [| reflexivity].
    f_equal. ring.
Qed.

Lemma gamma_product_prod (mp : mpmath) (b : list R) :
  defined (Main._gamma_product mp b) = Spec.gamma_prod mp b.
Proof.
  unfold Main._gamma_product. rewrite gamma_product_loop_prod.
  destruct (Spec.gamma_prod mp b) as [q |]; simpl; [| reflexivity].
  f_equal. ring.
Qed.

Lemma py_div_quotient (x y : R) : defined (py_div x y) = Spec.quotient x y.
Proof.
  unfold py_div, Spec.quotient. destruct (Req_dec_T y 0); reflexivity.
Qed.

Lemma hyper_reg_regPFq (mp : mpmath) (a b : list R) (z : R) :
  defined (Main.hyper_reg mp a b z) = Spec.regPFq mp a b z.
Proof.
  unfold Main.hyper_reg, Spec.regPFq, Spec.pFq.
  destruct (hyper mp a b z) as [h | e |]; simpl; try reflexivity.
  rewrite <- gamma_product_prod.
  destruct (Main._gamma_product mp b) as [p | e |]; simpl; try reflexivity.
  apply py_div_quotient.
Qed.


(** ** The two scripts define the same kernel and solver *)

Lemma XPB_hyper_reg_eq (mp : mpmath) (a b : list R) (z : R) :
  XPB_plot.hyper_reg mp a b z = Main.hyper_reg mp a b z.
Proof. reflexivity. Qed.

Lemma XPB_I_value_eq (mp : mpmath) (n nu Gamma : R) :
  XPB_plot.I_value mp n nu Gamma = Main.I_value mp n nu Gamma.
Proof. reflexivity. Qed.

Lemma XPB_gamma_eff_eq (mp : mpmath) (n k nu tol : R) (max_iter : Z) :
  XPB_plot.gamma_eff_PB mp n k nu tol max_iter
  = Main.gamma_eff mp n k nu tol max_iter.
Proof. reflexivity. Qed.

(** ** The solver's loop *)

Section Loop.

Variable mp : mpmath.
Variables n k nu tol : R.

Lemma gamma_eff_loop_S (r : nat) (G : R) :
  Main.gamma_eff_loop mp n k nu tol (S r) G
  = (Gn <- Spec.update mp n k nu G ;;
     if Rlt_dec (Rabs (Gn - G)) tol then Ok Gn
     else Main.gamma_eff_loop mp n k nu tol r Gn).
Proof.
  unfold Spec.update. cbn [Main.gamma_eff_loop].
  destruct (Main.I_value mp n nu G) as [I | e |]; reflexivity.
Qed.

(** After [j] updates that missed the tolerance the loop stands at the
    estimate reached, with the rest of its range ahead. *)
Lemma gamma_eff_resume (max_iter : Z) (j : nat) (G : R) :
  Spec.reaches mp n k nu tol j G ->
  forall r : nat, (j + r)%nat = Z.to_nat max_iter ->
  Main.gamma_eff mp n k nu tol max_iter
  = Main.gamma_eff_loop mp n k nu tol r G.
Proof.
  intros H. induction H as [| j G G' _ IH Hup Hfar]; intros r Hr.
  - unfold Main.gamma_eff. simpl in Hr. rewrite Hr. reflexivity.
  - rewrite (IH (S r)) by lia.
    rewrite gamma_eff_loop_S, Hup. cbn [bind].
    destruct (Rlt_dec (Rabs (G' - G)) tol) as [Hnear | _]; [contradiction | reflexivity].
Qed.


Lemma gamma_eff_converged (max_iter : Z) (j : nat) (G G' : R) :
  Spec.reaches mp n k nu tol j G ->
  (j < Z.to_nat max_iter)%nat ->
  Spec.update mp n k nu G = Ok G' ->
  Rabs (G' - G) < tol ->
  Main.gamma_eff mp n k nu tol max_iter = Ok G'.
Proof.
  intros H Hj Hup Hnear.
  rewrite (gamma_eff_resume max_iter _ _ H (S (Z.to_nat max_iter - S j))) by lia.
  rewrite gamma_eff_loop_S, Hup. cbn [bind].
  destruct (Rlt_dec (Rabs (G' - G)) tol) as [_ | Hfar]; [reflexivity | contradiction].
Qed.

Lemma gamma_eff_propagates (max_iter : Z) (j : nat) (G : R) (e : exn) :
  Spec.reaches mp n k nu tol j G ->
  (j < Z.to_nat max_iter)%nat ->
  Spec.update mp n k nu G = Raise e ->
  Main.gamma_eff mp n k nu tol max_iter = Raise e.
Proof.
  intros H Hj Hup.
  rewrite (gamma_eff_resume max_iter _ _ H (S (Z.to_nat max_iter - S j))) by lia.
  rewrite gamma_eff_loop_S, Hup. reflexivity.
Qed.

End Loop.

(** ** The kernel at the poles of its prefactor *)


(** ** The kernel on the mathematical library *)

Lemma Mp_gamma_product_loop (b : list R) (p : R) :
  Forall (fun c => 0 < c) b -> p <> 0 ->
  exists q, Main.gamma_product_loop Mp.lib p b = Ok q /\ q <> 0.
Proof.
  intros Hb. revert p. induction Hb as [| c b Hc _ IH]; intros p Hp.
  - exists p. split; [reflexivity | exact Hp].
  - cbn [Main.gamma_product_loop gamma Mp.lib].
    destruct (Mp_gamma_regular c (isnpint_pos c Hc)) as [g [Hg Hg0]].
    rewrite Hg. cbn [bind].
    apply IH. apply Rmult_integral_contrapositive_currified; assumption.
Qed.

Lemma Mp_hyper_reg_defined (a b : list R) (z : R) :
  Forall (fun c => 0 < c) b ->
  exists v, Main.hyper_reg Mp.lib a b z = Ok v.
Proof.
  intros Hb. unfold Main.hyper_reg. cbn [hyper Mp.lib].
  rewrite (Mp_hyper_positive a b z Hb). cbn [bind].
  unfold Main._gamma_product.
  destruct (Mp_gamma_product_loop b 1 Hb R1_neq_R0) as [q [Hq Hq0]].
  rewrite Hq. cbn [bind]. rewrite (py_div_nonzero _ _ Hq0). eauto.
Qed.

(** For an exponent between 0 and 1, a positive rate and a positive
    estimate, the kernel has a value. *)
Lemma Mp_I_value_defined (n nu Gamma : R) :
  0 < n < 1 -> 0 < nu -> 0 < Gamma ->
  exists I, Main.I_value Mp.lib n nu Gamma = Ok I.
Proof.
  intros [Hn0 Hn1] Hnu HG.
  assert (Hpi := PI_RGT_0).
  assert (Hd : (n - 1) * nu <> 0).
  { apply Rmult_integral_contrapositive_currified; lra. }
  assert (Hq : 4 * PI * nu <> 0).
  { apply Rgt_not_eq. apply Rmult_gt_0_compat; lra. }
  unfold Main.I_value.
  rewrite (py_pow_pos 2) by lra. cbn [bind].
  rewrite (py_pow_pos PI) by lra. cbn [bind].
  rewrite (py_div_nonzero _ _ Hd). cbn [bind].
  rewrite (py_div_nonzero _ _ Hq). cbn [bind].
  set (z := - (Gamma / (4 * PI * nu)) ^ 2).
  cbn [hyper gamma Mp.lib].
  rewrite Mp_hyper_positive by (repeat constructor; lra). cbn [bind].
  rewrite (py_pow_pos 4), (py_pow_pos PI) by lra. cbn [bind].
  destruct (Mp_hyper_reg_defined [(n - 1) / 2] [0.5; (2 + n) / 2] z) as [h2 ->];
    [repeat constructor; lra |].
  destruct (Mp_hyper_reg_defined [n / 2] [1.5; (3 + n) / 2] z) as [h3 ->];
    [repeat constructor; lra |].
  cbn [bind].
  rewrite (py_div_nonzero Gamma nu) by lra. cbn [bind].
  rewrite py_pow_pos by (apply Rdiv_lt_0_compat; lra). cbn [bind].
  destruct (Mp_gamma_regular (1 - n / 2)) as [g1 [-> _]]; [apply isnpint_pos; lra |].
  destruct (Mp_gamma_regular (1.5 - n / 2)) as [g2 [-> _]]; [apply isnpint_pos; lra |].
  cbn [bind]. eauto.
Qed.

(** ** The degenerate ratio [k = 1] *)

Lemma gamma_eff_k_one (mp : mpmath) (n nu tol : R) (max_iter : Z) :
  0 < tol -> (1 <= max_iter)%Z ->
  (exists I, Main.I_value mp n nu 1 = Ok I) ->
  Main.gamma_eff mp n 1 nu tol max_iter = Ok 1.
Proof.
  intros Htol Hmax [I HI].
  apply (gamma_eff_converged mp n 1 nu tol max_iter 0 1 1).
  - constructor.
  - lia.
  - unfold Spec.update, Main.Gamma_next. rewrite HI. cbn [bind].
    replace (1 - (1 - 1) * I) with 1 by ring.
    rewrite py_div_nonzero by lra. f_equal. field.
  - replace (1 - 1) with 0 by ring. rewrite Rabs_R0. exact Htol.
Qed.

(** ** An integer exponent: [n = 2] *)

Lemma isnpint_minus_half : Mp.isnpint (-0.5) = false.
Proof.
  unfold Mp.isnpint.
  destruct (Rle_dec (-0.5) 0) as [_ | _]; [| reflexivity].
  destruct (Req_dec_T (-0.5) (IZR (Int_part (-0.5)))) as [E | _]; [| reflexivity].
  exfalso. set (z := Int_part (-0.5)) in E.
  assert (H : IZR (2 * z) = IZR (-1)).
  { rewrite mult_IZR, <- E. lra. }
  apply eq_IZR in H. lia.
Qed.

Lemma Mp_hyper1_pole_n2 (z : R) :
  Mp.hyper [-0.5] [0.5 - 2 / 2; 1 - 2 / 2] z = Raise ZeroDivisionError.
Proof.
  unfold Mp.hyper.
  assert (H : Mp.pole [-0.5] [0.5 - 2 / 2; 1 - 2 / 2] = true).
  { unfold Mp.pole. cbn [existsb].
    rewrite isnpint_minus_half. cbn [andb orb negb].
    replace (1 - 2 / 2) with (IZR 0) by lra.
    rewrite isnpint_IZR by lia. apply Bool.orb_true_r. }
  rewrite H. reflexivity.
Qed.

Lemma Mp_I_value_n2 (nu Gamma : R) :
  0 < nu -> Main.I_value Mp.lib 2 nu Gamma = Raise ZeroDivisionError.
Proof.
  intros Hnu.
  assert (Hpi := PI_RGT_0).
  assert (Hq : 4 * PI * nu <> 0).
  { apply Rgt_not_eq. apply Rmult_gt_0_compat; lra. }
  unfold Main.I_value.
  rewrite (py_pow_pos 2) by lra. cbn [bind].
  rewrite (py_pow_pos PI) by lra. cbn [bind].
  rewrite py_div_nonzero by lra. cbn [bind].
  rewrite (py_div_nonzero _ _ Hq). cbn [bind].
  cbn [hyper Mp.lib]. rewrite Mp_hyper1_pole_n2. reflexivity.
Qed.

Lemma Mp_gamma_eff_n2 (k nu tol : R) (max_iter : Z) :
  0 < nu -> (1 <= max_iter)%Z ->
  Main.gamma_eff Mp.lib 2 k nu tol max_iter = Raise ZeroDivisionError.
Proof.
  intros Hnu Hmax.
  apply (gamma_eff_propagates Mp.lib 2 k nu tol max_iter 0 1).
  - constructor.
  - lia.
  - unfold Spec.update. rewrite (Mp_I_value_n2 nu 1 Hnu). reflexivity.
Qed.

(** ** The sweep *)

Section Sweep.

Variable mp : mpmath.

Lemma gamma_vals_raise (n k : R) (nus1 nus2 : list R) (nu : R) (e : exn) :
  Forall
    (fun v => exists g,
       Main.gamma_eff mp n k v default_tol default_max_iter = Ok g) nus1 ->
  Main.gamma_eff mp n k nu default_tol default_max_iter = Raise e ->
  Main.gamma_vals mp n k (nus1 ++ nu :: nus2) = Raise e.
Proof.
  intros Hok Hbad. induction Hok as [| v nus1 [g Hg] _ IH]; cbn [app Main.gamma_vals].
  - rewrite Hbad. reflexivity.
  - rewrite Hg. cbn [bind]. rewrite IH. reflexivity.
Qed.

Lemma sweep_raise (k : R) (nus : list R) (ns1 ns2 : list R) (n : R) (e : exn) :
  Forall (fun n' => exists gs, Main.gamma_vals mp n' k nus = Ok gs) ns1 ->
  Main.gamma_vals mp n k nus = Raise e ->
  forall fig, exists fig',
    Main.sweep mp (ns1 ++ n :: ns2) k nus fig = (fig', Raise e)
    /\ map curve_n fig' = map curve_n fig ++ ns1.
Proof.
  intros Hok Hbad. induction Hok as [| n' ns1 [gs Hgs] _ IH]; intros fig;
    cbn [app Main.sweep].
  - rewrite Hbad. exists fig. split; [reflexivity | now rewrite app_nil_r].
  - rewrite Hgs.
    destruct (IH (fig ++ [Build_curve n' nus gs])) as [fig' [Hs Hn]].
    exists fig'. split; [exact Hs |].
    rewrite Hn, map_app, <- app_assoc. reflexivity.
Qed.

Lemma gamma_vals_pointwise (n k : R) (nus : list R) (gs : list R) :
  Main.gamma_vals mp n k nus = Ok gs ->
  Forall2
    (fun nu g => Main.gamma_eff mp n k nu default_tol default_max_iter = Ok g)
    nus gs.
Proof.
  revert gs. induction nus as [| nu rest IH]; intros gs H; cbn [Main.gamma_vals] in H.
  - injection H as <-. constructor.
  - destruct (Main.gamma_eff mp n k nu default_tol default_max_iter) as [g | e |] eqn:Hg;
      cbn [bind] in H; try discriminate.
    destruct (Main.gamma_vals mp n k rest) as [gs' | e |]; cbn [bind] in H; try discriminate.
    injection H as <-. constructor; [exact Hg | apply IH; reflexivity].
Qed.

End Sweep.

(** ** The rate mapping *)

Lemma C2_value : XPB_plot.C2 = Ok (3.24 * Rpower PI (2 / 3)).
Proof.
  unfold XPB_plot.C2. rewrite py_pow_pos by apply PI_RGT_0. reflexivity.
Qed.

Lemma C2_pos : 0 < 3.24 * Rpower PI (2 / 3).
Proof.
  apply Rmult_lt_0_compat; [lra | apply exp_pos].
Qed.

Lemma nu_of_ru_formula (ru : R) :
  0 < ru -> XPB_plot.nu_of_ru ru = Ok (Spec.nu_formula ru).
Proof.
  intros Hru. assert (Hc := C2_pos).
  unfold XPB_plot.nu_of_ru. rewrite C2_value. cbn [bind].
  rewrite np_div_nonzero by lra. cbn [bind].
  rewrite np_power_pos by (apply Rdiv_lt_0_compat; lra).
  reflexivity.
Qed.






Lemma Mp_gamma_product_pole (b : list R) (c : R) :
  In c b -> Mp.isnpint c = true ->
  forall p, exists e, Main.gamma_product_loop Mp.lib p b = Raise e.
Proof.
  intros Hin Hc. induction b as [| x rest IH]; intros p; [contradiction |].
  cbn [Main.gamma_product_loop gamma Mp.lib]. unfold Mp.gamma.
  destruct (Mp.isnpint x) eqn:Hx; cbn [bind].
  - eauto.
  - destruct Hin as [-> | Hin]; [congruence | apply IH, Hin].
Qed.

Lemma Mp_hyper_reg_pole (a b : list R) (z c : R) :
  In c b -> Mp.isnpint c = true ->
  exists e, Main.hyper_reg Mp.lib a b z = Raise e.
Proof.
  intros Hin Hc. unfold Main.hyper_reg. cbn [hyper Mp.lib]. unfold Mp.hyper.
  destruct (Mp.pole a b); cbn [bind]; [eauto |].
  unfold Main._gamma_product.
  destruct (Mp_gamma_product_pole b c Hin Hc 1) as [e ->]. cbn [bind]. eauto.
Qed.

(** * Properties of the two scripts *)












(** C5, as amended.  When the solver raises at a grid point, the points
    before it on the curve and the curves before it having been computed,
    the sweep stops there with that exception: the figure holds the curves
    of the earlier [n] only, nothing is recorded about the failure, and the
    points and exponents that follow are not processed. *)
Theorem sweep_aborts
  (mp : mpmath) (k : R) (ns1 ns2 nus1 nus2 : list R) (n nu : R) (e : exn)
  (fig : list curve) :
  Forall
    (fun n' => exists gs,
       Main.gamma_vals mp n' k (nus1 ++ nu :: nus2) = Ok gs) ns1 ->
  Forall
    (fun v => exists g,
       Main.gamma_eff mp n k v default_tol default_max_iter = Ok g) nus1 ->
  Main.gamma_eff mp n k nu default_tol default_max_iter = Raise e ->
  exists fig',
    Main.sweep mp (ns1 ++ n :: ns2) k (nus1 ++ nu :: nus2) fig
    = (fig', Raise e)
    /\ map curve_n fig' = map curve_n fig ++ ns1.
Proof.
  intros Hcurves Hpoints Hbad.
  apply sweep_raise; [exact Hcurves |].
  apply gamma_vals_raise; assumption.
Qed.

Lemma sweep_aborts_witness :
  exists fig',
    Main.sweep Mp.lib ([] ++ 2 :: [0.2]) 0.1 ([] ++ 1 :: [10]) []
    = (fig', Raise ZeroDivisionError)
    /\ map curve_n fig' = map curve_n [] ++ [].
Proof.
  apply (sweep_aborts Mp.lib 0.1 [] [0.2] [] [10] 2 1 ZeroDivisionError []).
  - constructor.
  - constructor.
  - apply Mp_gamma_eff_n2; [lra | unfold default_max_iter; lia].
Defined.

(** C5, as stated, fails: with the exponents [2; 0.2] and the grid [1]
    the first solve raises (a pole of the kernel's first hypergeometric
    sum), and the sweep ends with that exception and an empty figure; the
    exponent 0.2 is never tried. *)
Lemma sweep_stops_at_first_failure :
  Main.sweep Mp.lib [2; 0.2] 0.1 [1] [] = ([], Raise ZeroDivisionError).
Proof.
  cbn [Main.sweep Main.gamma_vals].
  rewrite Mp_gamma_eff_n2; [reflexivity | lra | unfold default_max_iter; lia].
Qed.

(** C6, as amended.  The regularized variant of either script is the
    hypergeometric sum divided by the product of the gamma functions of
    the denominator parameters, formed literally: it has a value exactly
    when the sum and every gamma function have one and the product is not
    zero.  When some denominator parameter is a non-positive integer it
    has none: on the mathematical library the call raises. *)
Theorem hyper_reg_literal (mp : mpmath) (a b : list R) (z : R) :
  defined (Main.hyper_reg mp a b z) = Spec.regPFq mp a b z
  /\ defined (XPB_plot.hyper_reg mp a b z) = Spec.regPFq mp a b z
  /\ (forall c, In c b -> Mp.isnpint c = true ->
      exists e,
        Main.hyper_reg Mp.lib a b z = Raise e
        /\ XPB_plot.hyper_reg Mp.lib a b z = Raise e).
Proof.
  rewrite (XPB_hyper_reg_eq mp a b z). repeat split.
  - apply hyper_reg_regPFq.
  - apply hyper_reg_regPFq.
  - intros c Hin Hc. rewrite (XPB_hyper_reg_eq Mp.lib a b z).
    destruct (Mp_hyper_reg_pole a b z c Hin Hc) as [e He]. eauto.
Qed.

(** C6, as stated, fails: with the denominator parameters [0.5; 0] the
    regularized variant raises instead of staying finite. *)
Lemma hyper_reg_raises_at_pole :
  exists e, Main.hyper_reg Mp.lib [1.5] [0.5; 0] (-1) = Raise e.
Proof.
  apply (Mp_hyper_reg_pole [1.5] [0.5; 0] (-1) 0).
  - right. left. reflexivity.
  - apply (isnpint_IZR 0). lia.
Qed.








(** C10.  The kernel and the solver of the two scripts are the same
    functions: on every argument they return the same value or end with
    the same exception. *)
Theorem scripts_agree
  (mp : mpmath) (n k nu Gamma tol : R) (max_iter : Z) :
  XPB_plot.I_value mp n nu Gamma = Main.I_value mp n nu Gamma
  /\ XPB_plot.gamma_eff_PB mp n k nu tol max_iter
     = Main.gamma_eff mp n k nu tol max_iter.
Proof.
  split.
  - apply XPB_I_value_eq.
  - apply XPB_gamma_eff_eq.
Qed.

(** * Further properties *)

(** ** Gamma products and regularized sums on the mathematical library *)



Lemma Mp_gamma_product_loop_regular (b : list R) (p : R) :
  Forall (fun c => Mp.isnpint c = false) b -> p <> 0 ->
  Main.gamma_product_loop Mp.lib p b
  = Ok (fold_left Rmult (map Mp.gamma_fn b) p)
  /\ fold_left Rmult (map Mp.gamma_fn b) p <> 0.
Proof.
  intros Hb. revert p. induction Hb as [| c b Hc _ IH]; intros p Hp.
  - split; [reflexivity | exact Hp].
  - cbn [Main.gamma_product_loop gamma Mp.lib map fold_left].
    unfold Mp.gamma. rewrite Hc. cbn [bind].
    apply IH. apply Rmult_integral_contrapositive_currified;
      [exact Hp | apply gamma_fn_nonzero, Hc].
Qed.

Lemma Mp_gamma_product_loop_pole (b : list R) (p : R) :
  Exists (fun c => Mp.isnpint c = true) b ->
  Main.gamma_product_loop Mp.lib p b
  = Raise (ValueError "gamma function pole").
Proof.
  intros Hb. revert p. induction b as [| x rest IH]; intros p.
  - inversion Hb.
  - cbn [Main.gamma_product_loop gamma Mp.lib]. unfold Mp.gamma.
    destruct (Mp.isnpint x) eqn:Hx; cbn [bind]; [reflexivity |].
    apply IH. inversion Hb as [? ? Hc | ? ? Hc]; subst; [congruence | exact Hc].
Qed.

(** X1.  On the mathematical library the gamma product of either script
    is the product of the gamma functions taken from left to right,
    starting from 1, and it is never zero, when no element of the list is
    a non-positive integer; when one is, the product raises mpmath's
    [ValueError] for the pole, whatever the other elements are. *)
Theorem gamma_product_domain (b : list R) :
  (Forall (fun c => Mp.isnpint c = false) b ->
     Main._gamma_product Mp.lib b
     = Ok (fold_left Rmult (map Mp.gamma_fn b) 1)
     /\ XPB_plot._gamma_product Mp.lib b
        = Ok (fold_left Rmult (map Mp.gamma_fn b) 1)
     /\ fold_left Rmult (map Mp.gamma_fn b) 1 <> 0)
  /\ (Exists (fun c => Mp.isnpint c = true) b ->
      Main._gamma_product Mp.lib b = Raise (ValueError "gamma function pole")
      /\ XPB_plot._gamma_product Mp.lib b
         = Raise (ValueError "gamma function pole")).
Proof.
  split.
  - intros Hb.
    destruct (Mp_gamma_product_loop_regular b 1 Hb R1_neq_R0) as [Hv Hnz].
    repeat split; assumption.
  - intros Hb. split; apply Mp_gamma_product_loop_pole, Hb.
Qed.




(** ** The exponents at which the kernel has a value *)









(** ** The kernel depends on the ratio of estimate and rate only *)




(** ** What an outcome of the solver tells *)


Section Outcome.

Variable mp : mpmath.
Variables n k nu tol : R.


Lemma gamma_eff_loop_stable (out : result R) (r r' : nat) (G : R) :
  out <> Raise (RuntimeError [Lit "Convergence failed at ν̂ = "; Fmt_g nu]) ->
  (r <= r')%nat ->
  Main.gamma_eff_loop mp n k nu tol r G = out ->
  Main.gamma_eff_loop mp n k nu tol r' G = out.
Proof.
  intros Hout. revert r' G. induction r as [| r IH]; intros r' G Hr H.
  - exfalso. apply Hout. rewrite <- H. reflexivity.
  - destruct r' as [| r']; [lia |].
    rewrite gamma_eff_loop_S in H |- *.
    destruct (Spec.update mp n k nu G) as [Gn | e |]; cbn [bind] in H |- *;
      try exact H.
    destruct (Rlt_dec (Rabs (Gn - G)) tol) as [Hnear | Hfar]; [exact H |].
    apply IH; [lia | exact H].
Qed.

End Outcome.



(** X6.  Raising the iteration cap changes the solver's outcome only if
    that outcome was the convergence failure: a returned value, an
    exception of the kernel or of the division, and a non-real estimate
    are all kept under every larger cap (both scripts). *)
Theorem gamma_eff_cap_monotone
  (mp : mpmath) (n k nu tol : R) (max_iter max_iter' : Z) (out : result R) :
  out <> Raise (RuntimeError [Lit "Convergence failed at ν̂ = "; Fmt_g nu]) ->
  (max_iter <= max_iter')%Z ->
  Main.gamma_eff mp n k nu tol max_iter = out ->
  Main.gamma_eff mp n k nu tol max_iter' = out
  /\ XPB_plot.gamma_eff_PB mp n k nu tol max_iter' = out.
Proof.
  intros Hout Hle H.
  rewrite (XPB_gamma_eff_eq mp n k nu tol max_iter').
  split; unfold Main.gamma_eff;
    apply (gamma_eff_loop_stable mp n k nu tol out (Z.to_nat max_iter));
    try assumption; lia.
Qed.

Lemma gamma_eff_cap_monotone_witness :
  Main.gamma_eff Mp.lib 0.2 1 1 default_tol 300 = Ok 1
  /\ XPB_plot.gamma_eff_PB Mp.lib 0.2 1 1 default_tol 300 = Ok 1.
Proof.
  apply (gamma_eff_cap_monotone Mp.lib 0.2 1 1 default_tol 200 300 (Ok 1)).
  - discriminate.
  - lia.
  - apply gamma_eff_k_one; [unfold default_tol; lra | lia |].
    apply Mp_I_value_defined; lra.
Defined.

(** ** The exceptions of the kernel on the mathematical library *)











(** ** The figure a sweep leaves *)

Section Figure.

Variable mp : mpmath.

Lemma gamma_vals_total (n k : R) (nus : list R) :
  Forall
    (fun nu => exists g,
       Main.gamma_eff mp n k nu default_tol default_max_iter = Ok g) nus ->
  exists gs, Main.gamma_vals mp n k nus = Ok gs.
Proof.
  intros H. induction H as [| nu nus [g Hg] _ [gs Hgs]]; cbn [Main.gamma_vals].
  - eauto.
  - rewrite Hg. cbn [bind]. rewrite Hgs. cbn [bind]. eauto.
Qed.

Lemma sweep_figure_grows (ns : list R) (k : R) (nus : list R) (fig : list curve) :
  exists added rest,
    fst (Main.sweep mp ns k nus fig) = fig ++ added
    /\ ns = map curve_n added ++ rest
    /\ Forall
         (fun c =>
            curve_x c = nus
            /\ Forall2
                 (fun nu g =>
                    Main.gamma_eff mp (curve_n c) k nu
                      default_tol default_max_iter = Ok g)
                 nus (curve_y c))
         added
    /\ (snd (Main.sweep mp ns k nus fig) = Ok tt -> rest = []).
Proof.
  revert fig. induction ns as [| n ns IH]; intros fig; cbn [Main.sweep].
  - exists [], []. rewrite app_nil_r. repeat split. constructor.
  - destruct (Main.gamma_vals mp n k nus) as [gs | e |] eqn:Hgs.
    + destruct (IH (fig ++ [Build_curve n nus gs])) as [added [rest [Hf [Hn [Hc Hr]]]]].
      exists (Build_curve n nus gs :: added), rest.
      rewrite Hf, <- app_assoc. repeat split.
      * cbn [map curve_n app]. rewrite Hn at 1. reflexivity.
      * constructor; [| exact Hc]. cbn [curve_x curve_y curve_n].
        split; [reflexivity | apply gamma_vals_pointwise, Hgs].
      * exact Hr.
    + exists [], (n :: ns). rewrite app_nil_r. repeat split;
        [constructor | discriminate].
    + exists [], (n :: ns). rewrite app_nil_r. repeat split;
        [constructor | discriminate].
Qed.

Lemma sweep_all_solved (ns : list R) (k : R) (nus : list R) (fig : list curve) :
  (forall n nu, In n ns -> In nu nus ->
     exists g, Main.gamma_eff mp n k nu default_tol default_max_iter = Ok g) ->
  exists added,
    Main.sweep mp ns k nus fig = (fig ++ added, Ok tt)
    /\ map curve_n added = ns
    /\ Forall
         (fun c => curve_x c = nus /\ List.length (curve_y c) = List.length nus) added.
Proof.
  revert fig. induction ns as [| n ns IH]; intros fig Hall; cbn [Main.sweep].
  - exists []. rewrite app_nil_r. repeat split. constructor.
  - destruct (gamma_vals_total n k nus) as [gs Hgs].
    { apply Forall_forall. intros nu Hnu. apply Hall; [left; reflexivity | exact Hnu]. }
    rewrite Hgs.
    destruct (IH (fig ++ [Build_curve n nus gs])) as [added [Hs [Hn Hc]]].
    { intros n' nu Hn' Hnu. apply Hall; [right; exact Hn' | exact Hnu]. }
    exists (Build_curve n nus gs :: added).
    rewrite Hs, <- app_assoc. repeat split.
    + cbn [map curve_n]. rewrite Hn. reflexivity.
    + constructor; [| exact Hc]. cbn [curve_x curve_y]. split; [reflexivity |].
      symmetry. apply (Forall2_length (gamma_vals_pointwise mp n k nus gs Hgs)).
Qed.

Lemma sweep_accumulates (ns : list R) (k : R) (nus : list R) (fig : list curve) :
  Main.sweep mp ns k nus fig
  = (fig ++ fst (Main.sweep mp ns k nus []), snd (Main.sweep mp ns k nus [])).
Proof.
  revert fig. induction ns as [| n ns IH]; intros fig; cbn [Main.sweep].
  - rewrite app_nil_r. reflexivity.
  - destruct (Main.gamma_vals mp n k nus) as [gs | e |];
      cbn [fst snd]; rewrite ?app_nil_r; try reflexivity.
    rewrite (IH (fig ++ [Build_curve n nus gs])).
    rewrite (IH ([] ++ [Build_curve n nus gs])).
    cbn [fst snd app]. rewrite <- app_assoc. reflexivity.
Qed.

Lemma XPB_gamma_vals_eq (n k : R) (nus : list R) :
  XPB_plot.gamma_vals mp n k nus = Main.gamma_vals mp n k nus.
Proof.
  induction nus as [| nu rest IH]; cbn [XPB_plot.gamma_vals Main.gamma_vals].
  - reflexivity.
  - rewrite IH. reflexivity.
Qed.

Lemma XPB_sweep_replots
  (ns : list R) (k : R) (rus nus : list R) (fig : list curve) :
  XPB_plot.nu_vals rus = Ok nus ->
  XPB_plot.sweep mp ns k rus fig
  = (fig ++ map (fun c => Build_curve (curve_n c) rus (curve_y c))
              (fst (Main.sweep mp ns k nus [])),
     snd (Main.sweep mp ns k nus [])).
Proof.
  intros Hnus. revert fig.
  induction ns as [| n ns IH]; intros fig; cbn [XPB_plot.sweep Main.sweep].
  - cbn [fst snd map]. rewrite app_nil_r. reflexivity.
  - rewrite Hnus. cbn [bind]. rewrite XPB_gamma_vals_eq.
    destruct (Main.gamma_vals mp n k nus) as [gs | e |];
      cbn [fst snd map]; rewrite ?app_nil_r; try reflexivity.
    rewrite IH. rewrite (sweep_accumulates ns k nus ([] ++ [Build_curve n nus gs])).
    cbn [fst snd app map curve_n curve_y]. rewrite <- app_assoc. reflexivity.
Qed.

End Figure.

(** X8.  Whatever its outcome, the sweep of the first script only adds to
    the figure: it appends one curve for each exponent of a leading part
    of [n_list], in order; every curve has the whole grid as abscissae
    and, point by point, the values the solver returns there with the
    default tolerance and cap; and when the sweep ends normally that
    leading part is all of [n_list]. *)
Theorem sweep_figure
  (mp : mpmath) (ns : list R) (k : R) (nus : list R) (fig : list curve) :
  exists added rest,
    fst (Main.sweep mp ns k nus fig) = fig ++ added
    /\ ns = map curve_n added ++ rest
    /\ Forall
         (fun c =>
            curve_x c = nus
            /\ Forall2
                 (fun nu g =>
                    Main.gamma_eff mp (curve_n c) k nu
                      default_tol default_max_iter = Ok g)
                 nus (curve_y c))
         added
    /\ (snd (Main.sweep mp ns k nus fig) = Ok tt -> rest = []).
Proof.
  apply sweep_figure_grows.
Qed.

(** X9.  When the solver returns at every exponent of [n_list] and every
    grid point, the sweep of the first script ends normally and has added
    exactly one curve per exponent, in the order of [n_list], each with the
    grid as abscissae and as many ordinates as the grid has points. *)
Theorem sweep_complete
  (mp : mpmath) (ns : list R) (k : R) (nus : list R) (fig : list curve) :
  (forall n nu, In n ns -> In nu nus ->
     exists g, Main.gamma_eff mp n k nu default_tol default_max_iter = Ok g) ->
  exists added,
    Main.sweep mp ns k nus fig = (fig ++ added, Ok tt)
    /\ map curve_n added = ns
    /\ Forall
         (fun c => curve_x c = nus /\ List.length (curve_y c) = List.length nus) added.
Proof.
  apply sweep_all_solved.
Qed.

Lemma sweep_complete_witness :
  exists added,
    Main.sweep Mp.lib [0.2; 0.4] 1 [1; 10] [] = ([] ++ added, Ok tt)
    /\ map curve_n added = [0.2; 0.4]
    /\ Forall
         (fun c => curve_x c = [1; 10] /\ List.length (curve_y c) = List.length [1; 10])
         added.
Proof.
  apply (sweep_complete Mp.lib [0.2; 0.4] 1 [1; 10] []).
  intros n nu Hn Hnu. exists 1.
  apply gamma_eff_k_one.
  - unfold default_tol. lra.
  - unfold default_max_iter. lia.
  - apply Mp_I_value_defined.
    + destruct Hn as [<- | [<- | []]]; lra.
    + destruct Hnu as [<- | [<- | []]]; lra.
    + lra.
Defined.

(** X10.  On an empty grid neither script's sweep calls the solver: it
    ends normally with one empty curve per exponent, whatever the
    exponents are (1 included) and whatever the library does. *)
Theorem sweep_empty_grid
  (mp : mpmath) (ns : list R) (k : R) (fig : list curve) :
  Main.sweep mp ns k [] fig
  = (fig ++ map (fun n => Build_curve n [] []) ns, Ok tt)
  /\ XPB_plot.sweep mp ns k [] fig
     = (fig ++ map (fun n => Build_curve n [] []) ns, Ok tt).
Proof.
  split; revert fig; induction ns as [| n ns IH]; intros fig;
    cbn [Main.sweep XPB_plot.sweep Main.gamma_vals XPB_plot.gamma_vals
         XPB_plot.nu_vals bind map];
    rewrite ?app_nil_r; try reflexivity;
    rewrite IH, <- app_assoc; reflexivity.
Qed.

(** X11.  The sweep of the second script is the sweep of the first one on
    the converted grid, plotted against the rates: when the conversion of
    the rate grid gives the grid [nus], it adds the curves the first
    script's sweep computes on [nus], with the rates as abscissae, and
    ends with the same outcome. *)
Theorem XPB_sweep_is_main_sweep
  (mp : mpmath) (ns : list R) (k : R) (rus nus : list R) (fig : list curve) :
  XPB_plot.nu_vals rus = Ok nus ->
  XPB_plot.sweep mp ns k rus fig
  = (fig ++ map (fun c => Build_curve (curve_n c) rus (curve_y c))
              (fst (Main.sweep mp ns k nus [])),
     snd (Main.sweep mp ns k nus [])).
Proof.
  apply XPB_sweep_replots.
Qed.

Lemma XPB_sweep_is_main_sweep_witness :
  XPB_plot.sweep Mp.lib [0.2] 1 [1; 2] []
  = ([] ++ map (fun c => Build_curve (curve_n c) [1; 2] (curve_y c))
             (fst (Main.sweep Mp.lib [0.2] 1 (map Spec.nu_formula [1; 2]) [])),
     snd (Main.sweep Mp.lib [0.2] 1 (map Spec.nu_formula [1; 2]) [])).
Proof.
  apply (XPB_sweep_is_main_sweep Mp.lib [0.2] 1 [1; 2]
           (map Spec.nu_formula [1; 2]) []).
  cbn [XPB_plot.nu_vals map].
  rewrite !nu_of_ru_formula by lra. reflexivity.
Defined.

(** ** The grids *)










(** ** The converted grid of the second script *)







(** ** The points a sweep hands to the kernel *)



